(** * A shallow embedding of [statmach.py] (State, StateWithValue.action, Machine.__init__,
    Machine.fire and the inherited scoped exit of Machine).

    Python objects are modelled by [obj]: [ONone] is [None], [ORef r] is the
    object with identity [r].  Objects whose identity is a key of the heap
    are [State] instances (they carry an [actions] dict and the two hooks
    [__enter__] and [__exit__]); any other reference is a plain object with
    neither.  The hooks are caller-supplied code (subclasses override them),
    so they are parameters of the development: each one reads and updates
    the world and either returns or raises.  Every hook call made by the
    library is appended to a trace, which the hooks themselves cannot see. *)

From stdpp Require Import base gmap sets list.

(** ** Python values *)

Definition event := nat.

Inductive obj :=
| ONone
| ORef (r : nat).

#[global] Instance obj_eq_dec : EqDecision obj.
Proof. solve_decision. Defined.

(** Python's [is]: identity comparison. *)
Definition obj_is (a b : obj) : bool := bool_decide (a = b).

(** A value stored in an [actions] dict: normally the action tuple
    [(new_state, new_value)], but a dict may hold anything, and unpacking
    something else raises [ValueError]. *)
Inductive action_val :=
| APair (new_state new_value : obj)
| AOther.

(** Exceptions: the ones the library itself raises, and those raised by
    caller code (hooks). *)
Inductive exn :=
| KeyError (e : event)
| AttributeError
| ValueError
| UserExn (n : nat).

#[global] Instance exn_eq_dec : EqDecision exn.
Proof. solve_decision. Defined.

(** ** The world: state objects, the machine object, and the call trace *)

(** The part of a [State] instance the library reads: its [actions] dict. *)
Record state_rec := mk_state_rec { s_actions : gmap event action_val }.

(** The machine object: [self.state] and [self.actions]. *)
Record world := mk_world {
  heap : gmap nat state_rec;
  mstate : obj;
  mactions : gmap event action_val
}.

(** A hook call made by the library, with its arguments. *)
Inductive call :=
| CEnter (r : nat)
| CExit (r : nat) (exc : option exn).

#[global] Instance call_eq_dec : EqDecision call.
Proof. solve_decision. Defined.

(** ** A state and exception monad over the world and the trace *)

Definition M (A : Type) : Type :=
  world * list call -> (world * list call) * (exn + A).

Definition ret {A} (a : A) : M A := fun s => (s, inr a).
Definition raise {A} (e : exn) : M A := fun s => (s, inl e).
Definition bind {A B} (m : M A) (k : A -> M B) : M B :=
  fun s => match m s with
           | (s', inl e) => (s', inl e)
           | (s', inr a) => k a s'
           end.

Notation "x <- m ;; k" := (bind m (fun x => k))
  (at level 100, m at next level, right associativity).
Notation "m ;;; k" := (bind m (fun _ => k))
  (at level 100, right associativity).

(** [try m except e: h e] *)
Definition try_except {A} (m : M A) (h : exn -> M A) : M A :=
  fun s => match m s with
           | (s', inl e) => h e s'
           | (s', inr a) => (s', inr a)
           end.

Definition get_world : M world := fun s => (s, inr (fst s)).

(** [self.state = o] *)
Definition set_mstate (o : obj) : M unit :=
  fun s => ((mk_world (heap (fst s)) o (mactions (fst s)), snd s), inr tt).

(** [self.actions = {}], run by [State.__init__] when the machine is made. *)
Definition clear_mactions : M unit :=
  fun s => ((mk_world (heap (fst s)) (mstate (fst s)) ∅, snd s), inr tt).

(** [machine.actions[ev] = a], done by the caller. *)
Definition set_maction (ev : event) (a : action_val) : M unit :=
  fun s => ((mk_world (heap (fst s)) (mstate (fst s))
                      (<[ev:=a]> (mactions (fst s))), snd s), inr tt).

(** [state.actions]: [AttributeError] on an object that is not a State. *)
Definition get_actions (o : obj) : M (gmap event action_val) :=
  fun s => match o with
           | ORef r => match heap (fst s) !! r with
                       | Some sr => (s, inr (s_actions sr))
                       | None => (s, inl AttributeError)
                       end
           | ONone => (s, inl AttributeError)
           end.

(** [type(o).__enter__] / [type(o).__exit__] exist: [o] is a State. *)
Definition state_ref (o : obj) : M nat :=
  fun s => match o with
           | ORef r => if bool_decide (is_Some (heap (fst s) !! r))
                       then (s, inr r) else (s, inl AttributeError)
           | ONone => (s, inl AttributeError)
           end.

(** [new_state, new_value = entry] *)
Definition unpack (a : action_val) : M (obj * obj) :=
  match a with
  | APair ns nv => ret (ns, nv)
  | AOther => raise ValueError
  end.

(** [d[event]] on a dict: [KeyError] when the key is absent. *)
Definition dict_get (d : gmap event action_val) (ev : event) : M action_val :=
  match d !! ev with
  | Some a => ret a
  | None => raise (KeyError ev)
  end.

(** The type of caller-supplied hooks of the State with identity [r]. *)
Definition enter_hook_ty := nat -> world -> world * (exn + obj).
Definition exit_hook_ty := nat -> option exn -> world -> world * (exn + bool).

(** The hooks of [State] itself: [__enter__] returns [self], [__exit__]
    returns [False]. *)
Definition default_enter : enter_hook_ty := fun r w => (w, inr (ORef r)).
Definition default_exit : exit_hook_ty := fun _ _ w => (w, inr false).

Section Machine.

Variable enter_hook : enter_hook_ty.
Variable exit_hook : exit_hook_ty.

(** [o.__enter__()], recorded in the trace. *)
Definition call_enter (r : nat) : M obj :=
  fun s => let '(w', res) := enter_hook r (fst s) in
           ((w', snd s ++ [CEnter r]), res).

(** [o.__exit__(...)] on any object: [AttributeError] when it is not a
    State, else the hook, recorded in the trace. *)
Definition call_exit (o : obj) (exc : option exn) : M bool :=
  r <- state_ref o ;;
  (fun s => let '(w', res) := exit_hook r exc (fst s) in
            ((w', snd s ++ [CExit r exc]), res)).

(** The body of the [try] in [Machine.fire]:
<<
    machine_actions = self.actions
    state_actions = state.actions
    new_state, new_value = state_actions[event] if event in state_actions.keys() else machine_actions[event]
>> *)
Definition resolve (state : obj) (ev : event) : M (obj * obj) :=
  w <- get_world ;;
  let machine_actions := mactions w in
  state_actions <- get_actions state ;;
  a <- (if bool_decide (ev ∈ dom state_actions)
        then dict_get state_actions ev
        else dict_get machine_actions ev) ;;
  unpack a.

(** [Machine.fire(event=ev)]. *)
Definition fire (ev : event) : M obj :=
  w <- get_world ;;
  let state := mstate w in
  p <- try_except (resolve state ev)
         (fun e => handled <- call_exit state (Some e) ;;
                   if negb handled then raise e
                   else ret (state, ONone)) ;;
  let '(new_state, new_value) := p in
  (if negb (obj_is new_state state) then
     call_exit state None ;;;
     r <- state_ref new_state ;;
     o <- call_enter r ;;
     set_mstate o
   else ret tt) ;;;
  ret new_value.

(** [Machine.__init__(initial_state=init)], once [self.actions = {}]:
<<
    enter = type(initial_state).__enter__
    _ = type(initial_state).__exit__
    self.state = enter(initial_state)
>>
    The machine object is the one the world describes. *)
Definition machine_init (init : obj) : M unit :=
  clear_mactions ;;;
  r <- state_ref init ;;
  o <- call_enter r ;;
  set_mstate o.

End Machine.

(** [Machine] does not override [__enter__] or [__exit__]: they are
    [State]'s, so leaving a [with Machine(...)] block runs
    [State.__exit__], which does nothing and returns [False]. *)
Definition machine_enter : M unit := ret tt.
Definition machine_exit (exc : option exn) : M bool := ret false.

Section With.

Variable enter_hook : enter_hook_ty.

(** [with Machine(initial_state=init) as machine: body], following the
    semantics of the [with] statement: the manager's [__exit__] gets the
    exception of the body, if any, and its result decides whether that
    exception is re-raised; after a normal body it is called with [None]. *)
Definition with_machine (init : obj) (body : M unit) : M unit :=
  machine_init enter_hook init ;;;
  machine_enter ;;;
  ok <- try_except (body ;;; ret true)
          (fun e => b <- machine_exit (Some e) ;;
                    if b then ret false else raise e) ;;
  if ok then (machine_exit None ;;; ret tt) else ret tt.

End With.

(** ** Derived views used to state properties *)

(** The outcome of the [try] body of [fire] on a world: it only reads, so
    it is a pure function of the world. *)
Definition lookup_action (w : world) (ev : event) : exn + (obj * obj) :=
  snd (resolve (mstate w) ev (w, [])).

(** The set of events handled: keys of the machine's [actions] together
    with the keys of the current state's [actions]. *)
Definition events_handled (w : world) : gset event :=
  dom (mactions w) ∪
  match mstate w with
  | ORef r => match heap w !! r with
              | Some sr => dom (s_actions sr)
              | None => ∅
              end
  | ONone => ∅
  end.

(** All action tables: each State's [actions] and the machine's. *)
Definition tables (w : world) : gmap nat state_rec * gmap event action_val :=
  (heap w, mactions w).

(** ** Concrete machines *)

(** States [s_i], [s_0], [s_1] of the edge detector (identities 0, 1, 2);
    events [ZERO] = 0 and [ONE] = 1; outputs [Bit.ZERO] = [ORef 10] and
    [Bit.ONE] = [ORef 11]. *)
Definition bit_zero : obj := ORef 10.
Definition bit_one : obj := ORef 11.

Definition edge_heap : gmap nat state_rec :=
  <[0 := mk_state_rec {[ 0 := APair (ORef 1) bit_zero; 1 := APair (ORef 2) bit_zero ]} ]>
  (<[1 := mk_state_rec {[ 0 := APair (ORef 1) bit_zero; 1 := APair (ORef 2) bit_one ]} ]>
  {[ 2 := mk_state_rec {[ 0 := APair (ORef 1) bit_one; 1 := APair (ORef 2) bit_zero ]} ]}).

Definition edge_world0 : world := mk_world edge_heap ONone ∅.

(** A [with] body that fires an event and asserts the output is [out]. *)
Definition fire_expect (eh : enter_hook_ty) (xh : exit_hook_ty)
  (ev : event) (out : obj) : M unit :=
  o <- fire eh xh ev ;;
  if bool_decide (o = out) then ret tt else raise (UserExn 0).

Definition edge_body : M unit :=
  fire_expect default_enter default_exit 0 bit_zero ;;;
  fire_expect default_enter default_exit 0 bit_zero ;;;
  fire_expect default_enter default_exit 1 bit_one ;;;
  fire_expect default_enter default_exit 1 bit_zero ;;;
  fire_expect default_enter default_exit 0 bit_one.

Example edge_detector_runs :
  snd (with_machine default_enter (ORef 0) edge_body (edge_world0, [])) = inr tt.
Proof. vm_compute. reflexivity. Qed.

Example edge_detector_trace :
  snd (fst (with_machine default_enter (ORef 0) edge_body (edge_world0, []))) =
  [CEnter 0; CExit 0 None; CEnter 1; CExit 1 None; CEnter 2; CExit 2 None; CEnter 1].
Proof. vm_compute. reflexivity. Qed.

(** The traffic lights: [red], [green], [amber], [flashing_red] are
    identities 0..3, with values [ORef 20] .. [ORef 23]; the events
    [RED_TIMEOUT], [AMBER_TIMEOUT], [GREEN_TIMEOUT], [ERROR] are 0..3. *)
Definition light_action (r : nat) : action_val := APair (ORef r) (ORef (20 + r)).

Definition light_heap : gmap nat state_rec :=
  <[0 := mk_state_rec {[ 0 := light_action 1 ]} ]>
  (<[1 := mk_state_rec {[ 2 := light_action 2 ]} ]>
  (<[2 := mk_state_rec {[ 1 := light_action 0 ]} ]>
  {[ 3 := mk_state_rec ∅ ]})).

Definition light_body : M unit :=
  set_maction 0 (light_action 3) ;;; set_maction 1 (light_action 3) ;;;
  set_maction 2 (light_action 3) ;;; set_maction 3 (light_action 3) ;;;
  fire_expect default_enter default_exit 0 (ORef 21) ;;;
  fire_expect default_enter default_exit 2 (ORef 22) ;;;
  fire_expect default_enter default_exit 1 (ORef 20) ;;;
  fire_expect default_enter default_exit 1 (ORef 23) ;;;
  fire_expect default_enter default_exit 3 (ORef 23).

Example traffic_lights_run :
  with_machine default_enter (ORef 0) light_body (mk_world light_heap ONone ∅, []) =
  ((mk_world light_heap (ORef 3)
      {[ 0 := light_action 3; 1 := light_action 3;
         2 := light_action 3; 3 := light_action 3 ]},
    [CEnter 0; CExit 0 None; CEnter 1; CExit 1 None; CEnter 2;
     CExit 2 None; CEnter 0; CExit 0 None; CEnter 3]), inr tt).
Proof. vm_compute. reflexivity. Qed.

(** Small worlds: one State with no actions; two States where state 0
    sends event 1 to state 1. *)
Definition heap_one : gmap nat state_rec := {[ 0 := mk_state_rec ∅ ]}.
Definition world_one : world := mk_world heap_one (ORef 0) ∅.

Definition heap_two : gmap nat state_rec :=
  <[0 := mk_state_rec {[ 1 := APair (ORef 1) ONone ]} ]> {[ 1 := mk_state_rec ∅ ]}.
Definition world_two : world := mk_world heap_two (ORef 0) ∅.

(** Caller hooks: an [__exit__] that swallows every exception, an
    [__enter__] that returns [None], an [__exit__] that raises on a normal
    exit. *)
Definition swallow_exit : exit_hook_ty := fun _ _ w => (w, inr true).
Definition none_enter : enter_hook_ty := fun _ w => (w, inr ONone).
Definition raising_exit : exit_hook_ty :=
  fun _ exc w => match exc with
                 | None => (w, inl (UserExn 1))
                 | Some _ => (w, inr false)
                 end.

(** [o] is a State instance of world [w] (it has [actions] and the hooks). *)
Definition is_state (w : world) (o : obj) : Prop :=
  match o with
  | ORef r => is_Some (heap w !! r)
  | ONone => False
  end.

(** [StateWithValue.action]: the tuple [(self, self.value)] of the
    StateWithValue with identity [r], where [val_of r] is its [value]. *)
Definition swv_action (val_of : nat -> obj) (r : nat) : action_val :=
  APair (ORef r) (val_of r).

(** Every entry of the dict is the [action] of some StateWithValue. *)
Definition moore_table (val_of : nat -> obj) (d : gmap event action_val) : Prop :=
  map_Forall (fun _ a => exists r, a = swv_action val_of r) d.

(** Every entry of the dict is an action tuple whose new state is a State
    of [w]. *)
Definition targets_states (w : world) (d : gmap event action_val) : Prop :=
  map_Forall (fun _ a => match a with
                         | APair ns _ => is_state w ns
                         | AOther => False
                         end) d.

(** Every action table of [w] (each State's and the machine's) holds only
    action tuples leading to States of [w]. *)
Definition closed_tables (w : world) : Prop :=
  targets_states w (mactions w) /\
  map_Forall (fun _ sr => targets_states w (s_actions sr)) (heap w).

Definition exit_pure (xh : exit_hook_ty) : Prop := forall r x w, fst (xh r x w) = w.

(** The outcome of [new_state, new_value = a]. *)
Definition unpack_res (a : action_val) : exn + (obj * obj) :=
  match a with
  | APair ns nv => inr (ns, nv)
  | AOther => inl ValueError
  end.

(** ** Basic facts *)

Lemma resolve_pure (st : obj) (ev : event) (w : world) (tr : list call) :
  resolve st ev (w, tr) = ((w, tr), snd (resolve st ev (w, []))).
Proof.
  unfold resolve, bind, get_world, get_actions, dict_get, unpack, ret, raise.
  simpl. destruct st as [|r]; [reflexivity|].
  destruct (heap w !! r) as [sr|]; [|reflexivity].
  case_bool_decide.
  - destruct (s_actions sr !! ev) as [[]|]; reflexivity.
  - destruct (mactions w !! ev) as [[]|]; reflexivity.
Qed.

Lemma state_ref_state (w : world) (tr : list call) (r : nat) :
  is_Some (heap w !! r) -> state_ref (ORef r) (w, tr) = ((w, tr), inr r).
Proof. intros H. unfold state_ref. simpl. rewrite bool_decide_eq_true_2; auto. Qed.

Lemma obj_is_refl (o : obj) : obj_is o o = true.
Proof. unfold obj_is. apply bool_decide_eq_true_2. reflexivity. Qed.

Lemma obj_is_neq (a b : obj) : a <> b -> obj_is a b = false.
Proof. intros H. unfold obj_is. apply bool_decide_eq_false_2. exact H. Qed.

(** [fire] on a world whose lookup fails with [e], the current state being
    the State [r] whose [__exit__(e)] returns [b] in world [w']. *)
Lemma fire_failure_eq (eh : enter_hook_ty) (xh : exit_hook_ty)
    (w w' : world) (tr : list call) (ev : event) (r : nat) (e : exn) (b : bool) :
  lookup_action w ev = inl e ->
  mstate w = ORef r ->
  is_Some (heap w !! r) ->
  xh r (Some e) w = (w', inr b) ->
  fire eh xh ev (w, tr) =
  if b then ((w', tr ++ [CExit r (Some e)]), inr ONone)
  else ((w', tr ++ [CExit r (Some e)]), inl e).
Proof.
  intros Hl Hs Hst Hx. unfold lookup_action in Hl.
  unfold fire, bind, try_except, get_world. simpl.
  rewrite resolve_pure, Hl. unfold call_exit, bind.
  rewrite Hs. rewrite state_ref_state by exact Hst. simpl.
  rewrite Hx. destruct b; simpl.
  - unfold ret. rewrite obj_is_refl. reflexivity.
  - reflexivity.
Qed.

(** [fire] on a world whose lookup yields [(ns, v)] with [ns] not the
    current state [r]: the first hook to run is [r.__exit__(None)]. *)
Lemma fire_transition_exit_eq (eh : enter_hook_ty) (xh : exit_hook_ty)
    (w : world) (tr : list call) (ev : event) (r : nat) (ns v : obj) :
  lookup_action w ev = inr (ns, v) ->
  mstate w = ORef r ->
  ns <> ORef r ->
  is_Some (heap w !! r) ->
  fire eh xh ev (w, tr) =
  match xh r None w with
  | (w1, inl e) => ((w1, tr ++ [CExit r None]), inl e)
  | (w1, inr _) =>
      bind (r' <- state_ref ns ;; o <- call_enter eh r' ;; set_mstate o)
           (fun _ => ret v) (w1, tr ++ [CExit r None])
  end.
Proof.
  intros Hl Hs Hne Hst. unfold lookup_action in Hl.
  unfold fire, bind at 1 2 3, try_except, get_world. simpl.
  rewrite resolve_pure, Hl. rewrite Hs. simpl.
  rewrite obj_is_neq by exact Hne. simpl.
  unfold bind at 1 2. unfold call_exit. unfold bind at 1.
  rewrite state_ref_state by exact Hst. simpl.
  destruct (xh r None w) as [w1 [e|b]]; reflexivity.
Qed.

Lemma fire_transition_eq (eh : enter_hook_ty) (xh : exit_hook_ty)
    (w w1 w2 : world) (tr : list call) (ev : event) (r r' : nat) (v o : obj) (b : bool) :
  lookup_action w ev = inr (ORef r', v) ->
  mstate w = ORef r ->
  r' <> r ->
  is_Some (heap w !! r) ->
  xh r None w = (w1, inr b) ->
  is_Some (heap w1 !! r') ->
  eh r' w1 = (w2, inr o) ->
  fire eh xh ev (w, tr) =
  ((mk_world (heap w2) o (mactions w2), tr ++ [CExit r None; CEnter r']), inr v).
Proof.
  intros Hl Hs Hne Hst Hx Hst' He.
  rewrite (fire_transition_exit_eq eh xh w tr ev r (ORef r') v) by
    (auto; congruence).
  rewrite Hx. unfold bind at 1 2. rewrite state_ref_state by exact Hst'.
  unfold bind at 1, call_enter. simpl. rewrite He. simpl.
  rewrite <- app_assoc. reflexivity.
Qed.

(** ** Frame: [fire] only reads the action tables *)

Definition keeps_tables {A} (m : M A) : Prop :=
  forall s, tables (fst (fst (m s))) = tables (fst s).

Definition enter_keeps_tables (eh : enter_hook_ty) : Prop :=
  forall r w, tables (fst (eh r w)) = tables w.

Definition exit_keeps_tables (xh : exit_hook_ty) : Prop :=
  forall r x w, tables (fst (xh r x w)) = tables w.

Create HintDb tables_db.

Lemma ret_keeps {A} (a : A) : keeps_tables (ret a).
Proof. intros s. reflexivity. Qed.

Lemma raise_keeps {A} (e : exn) : keeps_tables (A:=A) (raise e).
Proof. intros s. reflexivity. Qed.

Lemma get_world_keeps : keeps_tables get_world.
Proof. intros s. reflexivity. Qed.

Lemma set_mstate_keeps (o : obj) : keeps_tables (set_mstate o).
Proof. intros s. reflexivity. Qed.

Lemma get_actions_keeps (o : obj) : keeps_tables (get_actions o).
Proof. intros s. unfold get_actions. repeat case_match; reflexivity. Qed.

Lemma state_ref_keeps (o : obj) : keeps_tables (state_ref o).
Proof. intros s. unfold state_ref. repeat case_match; reflexivity. Qed.

Lemma dict_get_keeps (d : gmap event action_val) (ev : event) :
  keeps_tables (dict_get d ev).
Proof. intros s. unfold dict_get. case_match; reflexivity. Qed.

Lemma unpack_keeps (a : action_val) : keeps_tables (unpack a).
Proof. intros s. destruct a; reflexivity. Qed.

Lemma bind_keeps {A B} (m : M A) (k : A -> M B) :
  keeps_tables m -> (forall a, keeps_tables (k a)) -> keeps_tables (bind m k).
Proof.
  intros Hm Hk s. unfold bind. specialize (Hm s).
  destruct (m s) as [s' [e|a]]; simpl in *; [exact Hm|].
  rewrite Hk. exact Hm.
Qed.

Lemma try_except_keeps {A} (m : M A) (h : exn -> M A) :
  keeps_tables m -> (forall e, keeps_tables (h e)) -> keeps_tables (try_except m h).
Proof.
  intros Hm Hh s. unfold try_except. specialize (Hm s).
  destruct (m s) as [s' [e|a]]; simpl in *; [|exact Hm].
  rewrite Hh. exact Hm.
Qed.

Lemma call_enter_keeps (eh : enter_hook_ty) (r : nat) :
  enter_keeps_tables eh -> keeps_tables (call_enter eh r).
Proof.
  intros He s. unfold call_enter. specialize (He r (fst s)).
  destruct (eh r (fst s)) as [w' res]. exact He.
Qed.

Lemma call_exit_keeps (xh : exit_hook_ty) (o : obj) (x : option exn) :
  exit_keeps_tables xh -> keeps_tables (call_exit xh o x).
Proof.
  intros Hx. unfold call_exit. apply bind_keeps; [apply state_ref_keeps|].
  intros r s. specialize (Hx r x (fst s)).
  destruct (xh r x (fst s)) as [w' res]. exact Hx.
Qed.

#[local] Hint Resolve ret_keeps raise_keeps get_world_keeps set_mstate_keeps
  get_actions_keeps state_ref_keeps dict_get_keeps unpack_keeps
  call_enter_keeps call_exit_keeps : tables_db.

Ltac keeps_step :=
  match goal with
  | |- keeps_tables (bind _ _) => apply bind_keeps; intros
  | |- keeps_tables (try_except _ _) => apply try_except_keeps; intros
  | |- keeps_tables (if ?b then _ else _) => destruct b
  | |- keeps_tables (let '(_, _) := ?p in _) => destruct p
  | |- keeps_tables _ => eauto with tables_db
  end.

Lemma resolve_keeps (st : obj) (ev : event) : keeps_tables (resolve st ev).
Proof. unfold resolve. repeat keeps_step. Qed.

(** ** Claims *)

(** C1 (counterexample): the claim that a transition changing the set of
    handled events raises is false: from [world_two] (state 0 handles
    event 1, state 1 handles nothing, the machine has no actions) firing
    event 1 moves to state 1 and returns [None] without raising. *)
Lemma C1_fire_no_event_set_check :
  events_handled world_two <> events_handled (mk_world heap_two (ORef 1) ∅) /\
  fire default_enter default_exit 1 (world_two, []) =
  ((mk_world heap_two (ORef 1) ∅, [CExit 0 None; CEnter 1]), inr ONone).
Proof.
  split.
  - apply (bool_decide_eq_false_1 (events_handled world_two = events_handled (mk_world heap_two (ORef 1) ∅))).
    vm_compute. reflexivity.
  - vm_compute. reflexivity.
Qed.

(** C1 (amended): [fire] makes no check of the handled-event set.  On a
    transition whose [__exit__] and [__enter__] return normally, [fire]
    returns the resolved output and the new current state is the value
    [__enter__] returned, whatever the handled-event sets before and after. *)
Theorem fire_transition_unchecked (eh : enter_hook_ty) (xh : exit_hook_ty)
    (w w1 w2 : world) (tr : list call) (ev : event) (r r' : nat) (v o : obj) (b : bool) :
  lookup_action w ev = inr (ORef r', v) ->
  mstate w = ORef r ->
  r' <> r ->
  is_Some (heap w !! r) ->
  xh r None w = (w1, inr b) ->
  is_Some (heap w1 !! r') ->
  eh r' w1 = (w2, inr o) ->
  snd (fire eh xh ev (w, tr)) = inr v /\
  mstate (fst (fst (fire eh xh ev (w, tr)))) = o.
Proof.
  intros. erewrite fire_transition_eq by eauto. split; reflexivity.
Qed.

Lemma fire_transition_unchecked_witness :
  snd (fire default_enter default_exit 1 (world_two, [])) = inr ONone /\
  mstate (fst (fst (fire default_enter default_exit 1 (world_two, [])))) = ORef 1.
Proof.
  apply (fire_transition_unchecked default_enter default_exit world_two world_two
           world_two [] 1 0 1 ONone (ORef 1) false).
  all: vm_compute; first [reflexivity | eexists; reflexivity | discriminate].
Defined.

(** C2 (code_bug): [Machine.__init__] calls the initial state's
    [__enter__] at construction, so opening and closing a machine without
    firing any event does enter the initial state (the test
    [test_not_entering_initial_state_if_no_event] expects it not to). *)
Theorem C2_open_close_enters_initial :
  snd (fst (machine_init default_enter (ORef 0) (world_one, []))) = [CEnter 0] /\
  snd (fst (with_machine default_enter (ORef 0) (ret tt) (world_one, []))) = [CEnter 0].
Proof. split; vm_compute; reflexivity. Qed.

(** C3 (counterexample): after an unhandled event whose [__exit__] returns
    [False], [fire] re-raises the [KeyError] but leaves [self.state] as it
    was: the reference is not cleared. *)
Lemma C3_fire_failure_keeps_reference :
  fire default_enter default_exit 5 (world_one, []) =
  ((world_one, [CExit 0 (Some (KeyError 5))]), inl (KeyError 5)) /\
  mstate world_one <> ONone.
Proof. split; [vm_compute; reflexivity | discriminate]. Qed.

(** C3 (amended): when resolution fails with [e] and the current state's
    [__exit__(e)] returns [False], [fire] re-raises [e] after that single
    [__exit__] call and does not touch [self.state]: it keeps whatever the
    hook left, so the departing state when the hook does not reassign it. *)
Theorem fire_failure_propagates (eh : enter_hook_ty) (xh : exit_hook_ty)
    (w w' : world) (tr : list call) (ev : event) (r : nat) (e : exn) :
  lookup_action w ev = inl e ->
  mstate w = ORef r ->
  is_Some (heap w !! r) ->
  xh r (Some e) w = (w', inr false) ->
  mstate w' = mstate w ->
  fire eh xh ev (w, tr) = ((w', tr ++ [CExit r (Some e)]), inl e) /\
  mstate (fst (fst (fire eh xh ev (w, tr)))) = ORef r.
Proof.
  intros Hl Hs Hst Hx Hk.
  rewrite (fire_failure_eq eh xh w w' tr ev r e false Hl Hs Hst Hx).
  split; [reflexivity|]. simpl. congruence.
Qed.

Lemma fire_failure_propagates_witness :
  fire default_enter default_exit 5 (world_one, []) =
  ((world_one, [CExit 0 (Some (KeyError 5))]), inl (KeyError 5)) /\
  mstate (fst (fst (fire default_enter default_exit 5 (world_one, [])))) = ORef 0.
Proof.
  apply (fire_failure_propagates default_enter default_exit world_one world_one
           [] 5 0 (KeyError 5)).
  all: vm_compute; first [reflexivity | eexists; reflexivity].
Defined.

(** C4: when resolution fails with [e] and the current state's
    [__exit__(e)] returns [True], [fire] returns [None], raises nothing,
    makes no hook call besides that [__exit__], and leaves [self.state]
    unchanged (when the hook itself does not reassign it). *)
Theorem fire_failure_swallowed (eh : enter_hook_ty) (xh : exit_hook_ty)
    (w w' : world) (tr : list call) (ev : event) (r : nat) (e : exn) :
  lookup_action w ev = inl e ->
  mstate w = ORef r ->
  is_Some (heap w !! r) ->
  xh r (Some e) w = (w', inr true) ->
  mstate w' = mstate w ->
  fire eh xh ev (w, tr) = ((w', tr ++ [CExit r (Some e)]), inr ONone) /\
  mstate (fst (fst (fire eh xh ev (w, tr)))) = mstate w.
Proof.
  intros Hl Hs Hst Hx Hk.
  rewrite (fire_failure_eq eh xh w w' tr ev r e true Hl Hs Hst Hx).
  split; [reflexivity|]. exact Hk.
Qed.

Lemma fire_failure_swallowed_witness :
  fire default_enter swallow_exit 5 (world_one, []) =
  ((world_one, [CExit 0 (Some (KeyError 5))]), inr ONone) /\
  mstate (fst (fst (fire default_enter swallow_exit 5 (world_one, [])))) = mstate world_one.
Proof.
  apply (fire_failure_swallowed default_enter swallow_exit world_one world_one
           [] 5 0 (KeyError 5)).
  all: vm_compute; first [reflexivity | eexists; reflexivity].
Defined.

(** C5 (code_bug): [Machine] inherits [State.__exit__], which returns
    [False] and does nothing else; so closing a machine whose initial state
    was entered never calls [__exit__(None)] on its current state.  The run
    below is [test_nesting_order], which expects [Exit state 0] before the
    machine closes. *)
Theorem C5_close_skips_state_exit :
  with_machine default_enter (ORef 0)
    (set_maction 1 (APair (ORef 0) ONone) ;;;
     _ <- fire default_enter default_exit 1 ;; ret tt)
    (world_one, []) =
  ((mk_world heap_one (ORef 0) {[ 1 := APair (ORef 0) ONone ]}, [CEnter 0]), inr tt) /\
  (forall (x : option exn) (s : world * list call), machine_exit x s = (s, inr false)).
Proof. split; [vm_compute; reflexivity | reflexivity]. Qed.

(** C6 (counterexample): an [__enter__] that returns [None] is not
    rejected: the transition stores [None] as [self.state]. *)
Lemma C6_fire_stores_absent_enter_result :
  fire none_enter default_exit 1 (world_two, []) =
  ((mk_world heap_two ONone ∅, [CExit 0 None; CEnter 1]), inr ONone).
Proof. vm_compute. reflexivity. Qed.

(** C6 (amended): on a transition from State [r] to State [r'], [fire]
    calls [r.__exit__(None)], then [r'.__enter__()]; the value [__exit__]
    returned plays no part, and [self.state] becomes exactly what
    [__enter__] returned, with no check that it is not [None]. *)
Theorem fire_transition_order (eh : enter_hook_ty) (xh : exit_hook_ty)
    (w w1 w2 : world) (tr : list call) (ev : event) (r r' : nat) (v o : obj) (b : bool) :
  lookup_action w ev = inr (ORef r', v) ->
  mstate w = ORef r ->
  r' <> r ->
  is_Some (heap w !! r) ->
  xh r None w = (w1, inr b) ->
  is_Some (heap w1 !! r') ->
  eh r' w1 = (w2, inr o) ->
  fire eh xh ev (w, tr) =
  ((mk_world (heap w2) o (mactions w2), tr ++ [CExit r None; CEnter r']), inr v).
Proof. intros. eapply fire_transition_eq; eauto. Qed.

Lemma fire_transition_order_witness :
  fire none_enter swallow_exit 1 (world_two, []) =
  ((mk_world heap_two ONone ∅, [CExit 0 None; CEnter 1]), inr ONone).
Proof.
  apply (fire_transition_order none_enter swallow_exit world_two world_two
           world_two [] 1 0 1 ONone ONone true).
  all: vm_compute; first [reflexivity | eexists; reflexivity | discriminate].
Defined.

(** C7: when the resolved new state is the current state itself, [fire]
    calls no hook, changes nothing and returns the resolved output. *)
Theorem fire_same_state_noop (eh : enter_hook_ty) (xh : exit_hook_ty)
    (w : world) (tr : list call) (ev : event) (v : obj) :
  lookup_action w ev = inr (mstate w, v) ->
  fire eh xh ev (w, tr) = ((w, tr), inr v).
Proof.
  intros Hl. unfold lookup_action in Hl.
  unfold fire, bind, try_except, get_world. simpl.
  rewrite resolve_pure, Hl. simpl. rewrite obj_is_refl. reflexivity.
Qed.

Lemma fire_same_state_noop_witness :
  fire default_enter default_exit 3
    (mk_world light_heap (ORef 3) {[ 3 := light_action 3 ]}, []) =
  ((mk_world light_heap (ORef 3) {[ 3 := light_action 3 ]}, []), inr (ORef 23)).
Proof. apply fire_same_state_noop. vm_compute. reflexivity. Defined.

(** C8: when the event is a key of the current state's [actions], that
    entry decides the action, whatever the machine's [actions] holds for
    the same event. *)
Theorem state_actions_take_precedence (w : world) (ev : event) (r : nat)
    (sr : state_rec) (a a' : action_val) :
  mstate w = ORef r ->
  heap w !! r = Some sr ->
  s_actions sr !! ev = Some a ->
  lookup_action w ev =
    match a with APair ns nv => inr (ns, nv) | AOther => inl ValueError end /\
  lookup_action (mk_world (heap w) (mstate w) (<[ev:=a']> (mactions w))) ev =
    lookup_action w ev.
Proof.
  intros Hs Hh Ha. unfold lookup_action, resolve, bind, get_world, get_actions.
  simpl. rewrite Hs, Hh. simpl.
  rewrite bool_decide_eq_true_2 by (apply elem_of_dom; eauto).
  unfold dict_get. rewrite Ha. destruct a; split; reflexivity.
Qed.

Lemma state_actions_take_precedence_witness :
  lookup_action (mk_world light_heap (ORef 0) ∅) 0 = inr (ORef 1, ORef 21) /\
  lookup_action (mk_world light_heap (ORef 0) (<[0 := light_action 3]> ∅)) 0 =
    lookup_action (mk_world light_heap (ORef 0) ∅) 0.
Proof.
  apply (state_actions_take_precedence (mk_world light_heap (ORef 0) ∅) 0 0
           (mk_state_rec {[ 0 := light_action 1 ]}) (light_action 1) (light_action 3)).
  all: vm_compute; reflexivity.
Defined.

(** C9: [fire] only reads the action tables: when the caller's hooks leave
    them alone, every outcome of [fire] (return, swallowed or propagated
    exception) leaves every State's [actions] and the machine's [actions]
    as they were. *)
Theorem fire_reads_tables_only (eh : enter_hook_ty) (xh : exit_hook_ty)
    (ev : event) (s : world * list call) :
  enter_keeps_tables eh ->
  exit_keeps_tables xh ->
  tables (fst (fst (fire eh xh ev s))) = tables (fst s).
Proof.
  intros He Hx. revert s. change (keeps_tables (fire eh xh ev)).
  unfold fire. repeat keeps_step; auto using resolve_keeps.
Qed.

Lemma fire_reads_tables_only_witness :
  tables (fst (fst (fire default_enter default_exit 1 (world_two, [])))) =
  tables world_two.
Proof.
  apply fire_reads_tables_only; [intros r w | intros r x w]; reflexivity.
Defined.

(** C10: on a transition, when the departing State's [__exit__(None)]
    raises, the exception reaches [fire]'s caller, no [__enter__] is
    called, and [self.state] is still the departing State (when the hook
    does not reassign it). *)
Theorem fire_exit_raise_propagates (eh : enter_hook_ty) (xh : exit_hook_ty)
    (w w1 : world) (tr : list call) (ev : event) (r : nat) (ns v : obj) (e : exn) :
  lookup_action w ev = inr (ns, v) ->
  mstate w = ORef r ->
  ns <> ORef r ->
  is_Some (heap w !! r) ->
  xh r None w = (w1, inl e) ->
  mstate w1 = mstate w ->
  fire eh xh ev (w, tr) = ((w1, tr ++ [CExit r None]), inl e) /\
  mstate (fst (fst (fire eh xh ev (w, tr)))) = ORef r.
Proof.
  intros Hl Hs Hne Hst Hx Hk.
  rewrite (fire_transition_exit_eq eh xh w tr ev r ns v Hl Hs Hne Hst), Hx.
  split; [reflexivity|]. simpl. congruence.
Qed.

Lemma fire_exit_raise_propagates_witness :
  fire default_enter raising_exit 1 (world_two, []) =
  ((world_two, [CExit 0 None]), inl (UserExn 1)) /\
  mstate (fst (fst (fire default_enter raising_exit 1 (world_two, [])))) = ORef 0.
Proof.
  apply (fire_exit_raise_propagates default_enter raising_exit world_two world_two
           [] 1 0 (ORef 1) ONone (UserExn 1)).
  all: vm_compute; first [reflexivity | eexists; reflexivity | discriminate].
Defined.

(** ** Further properties of the code *)








(** When the new State's [__enter__] raises, the exception reaches the
    caller after [__exit__(None)] of the departing State and that
    [__enter__]; [self.state] still names the departing State, which has
    already been exited (when the hooks do not reassign it). *)
Theorem fire_enter_raise (eh : enter_hook_ty) (xh : exit_hook_ty)
    (w w1 w2 : world) (tr : list call) (ev : event) (r r' : nat) (v : obj) (b : bool) (e : exn) :
  lookup_action w ev = inr (ORef r', v) ->
  mstate w = ORef r ->
  r' <> r ->
  is_Some (heap w !! r) ->
  xh r None w = (w1, inr b) ->
  is_Some (heap w1 !! r') ->
  eh r' w1 = (w2, inl e) ->
  mstate w2 = mstate w ->
  fire eh xh ev (w, tr) = ((w2, tr ++ [CExit r None; CEnter r']), inl e) /\
  mstate (fst (fst (fire eh xh ev (w, tr)))) = ORef r.
Proof.
  intros Hl Hs Hne Hst Hx Hst' He Hk.
  assert (Hf : fire eh xh ev (w, tr) = ((w2, tr ++ [CExit r None; CEnter r']), inl e)).
  { rewrite (fire_transition_exit_eq eh xh w tr ev r (ORef r') v) by (auto; congruence).
    rewrite Hx. unfold bind at 1 2. rewrite state_ref_state by exact Hst'.
    unfold bind at 1, call_enter. simpl. rewrite He. simpl.
    rewrite <- app_assoc. reflexivity. }
  rewrite Hf. split; [reflexivity|]. simpl. congruence.
Qed.

Definition enter_raises_1 : enter_hook_ty :=
  fun r w => if bool_decide (r = 1) then (w, inl (UserExn 2)) else (w, inr (ORef r)).

Lemma fire_enter_raise_witness :
  fire enter_raises_1 default_exit 1 (world_two, []) =
  ((world_two, [CExit 0 None; CEnter 1]), inl (UserExn 2)) /\
  mstate (fst (fst (fire enter_raises_1 default_exit 1 (world_two, [])))) = ORef 0.
Proof.
  apply (fire_enter_raise enter_raises_1 default_exit world_two world_two world_two
           [] 1 0 1 ONone false (UserExn 2)).
  all: vm_compute; first [reflexivity | eexists; reflexivity | discriminate].
Defined.

(** When resolution fails with [e] and the current State's [__exit__(e)]
    itself raises [e'], [e'] (not [e]) reaches the caller, and no other
    hook runs. *)
Theorem fire_handler_exit_raise (eh : enter_hook_ty) (xh : exit_hook_ty)
    (w w' : world) (tr : list call) (ev : event) (r : nat) (e e' : exn) :
  lookup_action w ev = inl e ->
  mstate w = ORef r ->
  is_Some (heap w !! r) ->
  xh r (Some e) w = (w', inl e') ->
  fire eh xh ev (w, tr) = ((w', tr ++ [CExit r (Some e)]), inl e').
Proof.
  intros Hl Hs Hst Hx. unfold lookup_action in Hl.
  unfold fire, bind, try_except, get_world. simpl.
  rewrite resolve_pure, Hl. unfold call_exit, bind.
  rewrite Hs. rewrite state_ref_state by exact Hst. simpl.
  rewrite Hx. reflexivity.
Qed.

Definition exit_raises_on_exc : exit_hook_ty :=
  fun _ exc w => match exc with
                 | Some _ => (w, inl (UserExn 3))
                 | None => (w, inr false)
                 end.

Lemma fire_handler_exit_raise_witness :
  fire default_enter exit_raises_on_exc 5 (world_one, []) =
  ((world_one, [CExit 0 (Some (KeyError 5))]), inl (UserExn 3)).
Proof.
  apply (fire_handler_exit_raise default_enter exit_raises_on_exc world_one world_one
           [] 5 0 (KeyError 5) (UserExn 3)).
  all: vm_compute; first [reflexivity | eexists; reflexivity].
Defined.



(** [Machine(initial_state=init)] with a State [init]: the machine's
    [actions] start empty, [init.__enter__()] is called once, and
    [self.state] is what it returned. *)
Theorem machine_init_state (eh : enter_hook_ty) (w w2 : world) (tr : list call)
    (r : nat) (o : obj) :
  is_Some (heap w !! r) ->
  eh r (mk_world (heap w) (mstate w) ∅) = (w2, inr o) ->
  machine_init eh (ORef r) (w, tr) =
  ((mk_world (heap w2) o (mactions w2), tr ++ [CEnter r]), inr tt).
Proof.
  intros Hst He. unfold machine_init, bind at 1. simpl.
  unfold bind at 1. rewrite (state_ref_state (mk_world (heap w) (mstate w) ∅)) by exact Hst.
  unfold bind, call_enter. simpl. rewrite He. reflexivity.
Qed.

Lemma machine_init_state_witness :
  machine_init default_enter (ORef 1) (mk_world heap_two ONone {[ 4 := AOther ]}, []) =
  ((mk_world heap_two (ORef 1) ∅, [CEnter 1]), inr tt).
Proof.
  apply (machine_init_state default_enter _ (mk_world heap_two ONone ∅) [] 1 (ORef 1)).
  all: vm_compute; first [reflexivity | eexists; reflexivity].
Defined.

(** *** Equations of [fire] shared by the proofs below *)

Lemma lookup_action_eq (w : world) (ev : event) (r : nat) (sr : state_rec) :
  mstate w = ORef r ->
  heap w !! r = Some sr ->
  lookup_action w ev =
    match s_actions sr !! ev with
    | Some a => unpack_res a
    | None => match mactions w !! ev with
              | Some a => unpack_res a
              | None => inl (KeyError ev)
              end
    end.
Proof.
  intros Hs Hh. unfold lookup_action, resolve, bind, get_world, get_actions.
  simpl. rewrite Hs, Hh. simpl. unfold dict_get.
  destruct (s_actions sr !! ev) as [a|] eqn:Ha.
  - rewrite bool_decide_eq_true_2 by (apply elem_of_dom; eauto).
    destruct a; reflexivity.
  - rewrite bool_decide_eq_false_2 by (rewrite not_elem_of_dom; exact Ha).
    destruct (mactions w !! ev) as [[]|]; reflexivity.
Qed.

Lemma fire_handler_eq (eh : enter_hook_ty) (xh : exit_hook_ty)
    (w w' : world) (tr : list call) (ev : event) (r : nat) (e : exn) (res : exn + bool) :
  lookup_action w ev = inl e ->
  mstate w = ORef r ->
  is_Some (heap w !! r) ->
  xh r (Some e) w = (w', res) ->
  fire eh xh ev (w, tr) =
  ((w', tr ++ [CExit r (Some e)]),
   match res with
   | inl e' => inl e'
   | inr true => inr ONone
   | inr false => inl e
   end).
Proof.
  intros Hl Hs Hst Hx. unfold lookup_action in Hl.
  unfold fire, bind, try_except, get_world. simpl.
  rewrite resolve_pure, Hl. unfold call_exit, bind.
  rewrite Hs. rewrite state_ref_state by exact Hst. simpl.
  rewrite Hx. destruct res as [e'|[]]; simpl; [reflexivity| |reflexivity].
  unfold ret. rewrite obj_is_refl. reflexivity.
Qed.

Lemma fire_same_eq (eh : enter_hook_ty) (xh : exit_hook_ty)
    (w : world) (tr : list call) (ev : event) (v : obj) :
  lookup_action w ev = inr (mstate w, v) ->
  fire eh xh ev (w, tr) = ((w, tr), inr v).
Proof.
  intros Hl. unfold lookup_action in Hl.
  unfold fire, bind, try_except, get_world. simpl.
  rewrite resolve_pure, Hl. simpl. rewrite obj_is_refl. reflexivity.
Qed.

Lemma fire_move_eq (eh : enter_hook_ty) (xh : exit_hook_ty)
    (w : world) (tr : list call) (ev : event) (r : nat) (ns v : obj) :
  lookup_action w ev = inr (ns, v) ->
  mstate w = ORef r ->
  ns <> ORef r ->
  is_Some (heap w !! r) ->
  fire eh xh ev (w, tr) =
  match xh r None w with
  | (w1, inl e) => ((w1, tr ++ [CExit r None]), inl e)
  | (w1, inr _) =>
      match ns with
      | ORef r' =>
          match heap w1 !! r' with
          | Some _ =>
              match eh r' w1 with
              | (w2, inl e) => ((w2, tr ++ [CExit r None; CEnter r']), inl e)
              | (w2, inr o) =>
                  ((mk_world (heap w2) o (mactions w2), tr ++ [CExit r None; CEnter r']),
                   inr v)
              end
          | None => ((w1, tr ++ [CExit r None]), inl AttributeError)
          end
      | ONone => ((w1, tr ++ [CExit r None]), inl AttributeError)
      end
  end.
Proof.
  intros Hl Hs Hne Hst.
  rewrite (fire_transition_exit_eq eh xh w tr ev r ns v Hl Hs Hne Hst).
  destruct (xh r None w) as [w1 [e|b]]; [reflexivity|].
  unfold bind at 1 2, state_ref. destruct ns as [|r']; [reflexivity|]. simpl.
  destruct (heap w1 !! r') as [sr'|] eqn:Hh.
  - rewrite bool_decide_eq_true_2 by (eexists; reflexivity).
    unfold bind at 1, call_enter. simpl.
    destruct (eh r' w1) as [w2 [e|o]]; simpl; rewrite <- app_assoc; reflexivity.
  - rewrite bool_decide_eq_false_2 by (intros [? ?]; discriminate). reflexivity.
Qed.

(** ** Composition, Mealy and Moore behaviour, invariants *)

(** A [with Machine(...)] block behaves exactly as constructing the
    machine and then running the body: [Machine.__enter__] and the
    inherited [Machine.__exit__] add no hook call, change nothing, and
    let every exception of the body through. *)
Theorem with_machine_is_init_then_body (eh : enter_hook_ty) (init : obj)
    (body : M unit) (s : world * list call) :
  with_machine eh init body s = bind (machine_init eh init) (fun _ => body) s.
Proof.
  unfold with_machine, machine_enter, machine_exit, bind, try_except, ret.
  destruct (machine_init eh init s) as [s1 [e|[]]]; [reflexivity|].
  destruct (body s1) as [s2 [e|[]]]; reflexivity.
Qed.

(** With the hooks of [State] itself (as used by [State] and
    [StateWithValue]), [fire] is the Mealy step: when the tables resolve
    the event to [(new_state, v)] and [new_state] is a State, the machine
    moves to [new_state] and outputs [v]; [__exit__]/[__enter__] run only
    when [new_state] is a different State. *)
Theorem fire_default_mealy (w : world) (tr : list call) (ev : event)
    (r r' : nat) (v : obj) :
  mstate w = ORef r ->
  is_Some (heap w !! r) ->
  lookup_action w ev = inr (ORef r', v) ->
  is_Some (heap w !! r') ->
  fire default_enter default_exit ev (w, tr) =
  ((mk_world (heap w) (ORef r') (mactions w),
    if bool_decide (r' = r) then tr else tr ++ [CExit r None; CEnter r']), inr v).
Proof.
  intros Hs Hst Hl Hst'. case_bool_decide as Heq.
  - subst r'. rewrite <- Hs in Hl. rewrite (fire_same_eq _ _ w tr ev v Hl).
    destruct w as [h ms ma]. simpl in *. subst ms. reflexivity.
  - rewrite (fire_move_eq _ _ w tr ev r (ORef r') v Hl Hs) by (auto; congruence).
    unfold default_exit, default_enter. destruct Hst' as [sr' Hh]. rewrite Hh.
    reflexivity.
Qed.

Lemma fire_default_mealy_witness :
  fire default_enter default_exit 1 (mk_world edge_heap (ORef 1) ∅, [CEnter 1]) =
  ((mk_world edge_heap (ORef 2) ∅, [CEnter 1; CExit 1 None; CEnter 2]), inr bit_one).
Proof.
  apply (fire_default_mealy (mk_world edge_heap (ORef 1) ∅) [CEnter 1] 1 1 2 bit_one).
  all: vm_compute; first [reflexivity | eexists; reflexivity].
Defined.

(** Moore machines: when every action in the current State's [actions]
    and in the machine's [actions] is [s.action] of a StateWithValue [s],
    any output [fire] returns (with the hooks of [State]) is the [value]
    of the State the machine is in afterwards. *)
Theorem fire_moore_output (val_of : nat -> obj) (w : world) (tr : list call)
    (ev : event) (r : nat) (sr : state_rec) (s' : world * list call) (v : obj) :
  mstate w = ORef r ->
  heap w !! r = Some sr ->
  moore_table val_of (s_actions sr) ->
  moore_table val_of (mactions w) ->
  fire default_enter default_exit ev (w, tr) = (s', inr v) ->
  exists r', mstate (fst s') = ORef r' /\ v = val_of r'.
Proof.
  intros Hs Hh Hms Hmm Hf.
  pose proof (lookup_action_eq w ev r sr Hs Hh) as Hl.
  assert (Hst : is_Some (heap w !! r)) by eauto.
  destruct (lookup_action w ev) as [e|[ns nv]] eqn:Hla.
  - rewrite (fire_handler_eq _ _ w w tr ev r e (inr false) Hla Hs Hst) in Hf
      by reflexivity. discriminate.
  - assert (Hent : exists r'', ns = ORef r'' /\ nv = val_of r'').
    { destruct (s_actions sr !! ev) as [a|] eqn:Ha.
      - destruct (Hms ev a Ha) as [r'' ->]. simpl in Hl. injection Hl. eauto.
      - destruct (mactions w !! ev) as [a|] eqn:Ha'; [|discriminate].
        destruct (Hmm ev a Ha') as [r'' ->]. simpl in Hl. injection Hl. eauto. }
    destruct Hent as [r'' [-> ->]].
    destruct (decide (r'' = r)) as [->|Hne].
    + rewrite <- Hs in Hla. rewrite (fire_same_eq _ _ w tr ev _ Hla) in Hf.
      inversion Hf; subst. exists r. auto.
    + rewrite (fire_move_eq _ _ w tr ev r (ORef r'') (val_of r'') Hla Hs)
        in Hf by (auto; congruence).
      unfold default_exit, default_enter in Hf.
      destruct (heap w !! r''); inversion Hf; subst.
      exists r''. auto.
Qed.

Lemma fire_moore_output_witness :
  exists r', mstate (fst (fst (fire default_enter default_exit 0
                                  (mk_world light_heap (ORef 0) ∅, [])))) = ORef r' /\
             ORef 21 = ORef (20 + r').
Proof.
  apply (fire_moore_output (fun r => ORef (20 + r)) (mk_world light_heap (ORef 0) ∅) [] 0 0
           (mk_state_rec {[ 0 := light_action 1 ]})).
  - reflexivity.
  - vm_compute. reflexivity.
  - intros i a Ha. simpl in Ha. apply lookup_singleton_Some in Ha as [_ <-].
    exists 1. reflexivity.
  - intros i a Ha. simpl in Ha. rewrite lookup_empty in Ha. discriminate.
  - vm_compute. reflexivity.
Defined.



(** With the hooks of [State], when every action table holds only action
    tuples leading to States, the only exception [fire] can raise is
    [KeyError(event)], and only for an event that neither the current
    State's [actions] nor the machine's [actions] has. *)
Theorem fire_default_fails_only_unhandled (w : world) (tr : list call) (ev : event)
    (r : nat) (sr : state_rec) (e : exn) :
  mstate w = ORef r ->
  heap w !! r = Some sr ->
  closed_tables w ->
  snd (fire default_enter default_exit ev (w, tr)) = inl e ->
  e = KeyError ev /\ s_actions sr !! ev = None /\ mactions w !! ev = None.
Proof.
  intros Hs Hh [Hcm Hch] Hf.
  pose proof (lookup_action_eq w ev r sr Hs Hh) as Hl.
  assert (Hst : is_Some (heap w !! r)) by eauto.
  (* a tuple leading to a State never makes [fire] raise *)
  assert (Hok : forall ns v, lookup_action w ev = inr (ns, v) -> is_state w ns -> False).
  { intros ns v Hla Hns.
    destruct (decide (ns = ORef r)) as [->|Hne].
    - rewrite <- Hs in Hla. rewrite (fire_same_eq _ _ w tr ev v Hla) in Hf. discriminate.
    - rewrite (fire_move_eq _ _ w tr ev r ns v Hla Hs Hne Hst) in Hf.
      unfold default_exit, default_enter in Hf.
      destruct ns as [|r']; [contradiction|]. destruct Hns as [sr' Hr'].
      rewrite Hr' in Hf. discriminate. }
  destruct (s_actions sr !! ev) as [a|] eqn:Ha.
  - exfalso. pose proof (Hch r sr Hh ev a Ha) as Ht. simpl in Ht.
    destruct a as [ns v|]; [|contradiction]. exact (Hok ns v Hl Ht).
  - destruct (mactions w !! ev) as [a|] eqn:Ha'.
    + exfalso. pose proof (Hcm ev a Ha') as Ht. simpl in Ht.
      destruct a as [ns v|]; [|contradiction]. exact (Hok ns v Hl Ht).
    + rewrite (fire_handler_eq _ _ w w tr ev r (KeyError ev) (inr false) Hl Hs Hst)
        in Hf by reflexivity.
      simpl in Hf. injection Hf as <-. auto.
Qed.

Lemma fire_default_fails_only_unhandled_witness :
  KeyError 2 = KeyError 2 /\
  s_actions (mk_state_rec {[ 1 := APair (ORef 1) ONone ]}) !! 2 = None /\
  mactions world_two !! 2 = None.
Proof.
  apply (fire_default_fails_only_unhandled world_two [] 2 0
           (mk_state_rec {[ 1 := APair (ORef 1) ONone ]})).
  - reflexivity.
  - vm_compute. reflexivity.
  - split.
    + intros i a Ha. simpl in Ha. rewrite lookup_empty in Ha. discriminate.
    + intros i sr Hi. simpl in Hi. unfold heap_two in Hi.
      apply lookup_insert_Some in Hi as [[<- <-]|[_ Hi]].
      * intros j a Ha. simpl in Ha. apply lookup_singleton_Some in Ha as [_ <-].
        simpl. eexists. vm_compute. reflexivity.
      * apply lookup_singleton_Some in Hi as [_ <-].
        intros j a Ha. simpl in Ha. rewrite lookup_empty in Ha. discriminate.
  - vm_compute. reflexivity.
Defined.

(** After a failure swallowed by the current State's [__exit__] (which
    returns [True] and leaves the world alone), the machine keeps
    operating from the same state: the next [fire] behaves as it would
    have without the failed one, after that one [__exit__] call. *)
Theorem fire_after_swallowed (eh : enter_hook_ty) (xh : exit_hook_ty)
    (w : world) (tr : list call) (ev ev2 : event) (r : nat) (e : exn) :
  exit_pure xh ->
  mstate w = ORef r ->
  is_Some (heap w !! r) ->
  lookup_action w ev = inl e ->
  snd (xh r (Some e) w) = inr true ->
  bind (fire eh xh ev) (fun _ => fire eh xh ev2) (w, tr) =
  fire eh xh ev2 (w, tr ++ [CExit r (Some e)]).
Proof.
  intros Hxp Hs Hst Hl Hx.
  assert (Hx' : xh r (Some e) w = (w, inr true)).
  { pose proof (Hxp r (Some e) w) as H.
    destruct (xh r (Some e) w) as [w' res]. simpl in *. subst. reflexivity. }
  unfold bind at 1. rewrite (fire_handler_eq eh xh w w tr ev r e (inr true) Hl Hs Hst Hx').
  reflexivity.
Qed.

Lemma fire_after_swallowed_witness :
  bind (fire default_enter swallow_exit 5) (fun _ => fire default_enter swallow_exit 1)
    (world_two, []) =
  fire default_enter swallow_exit 1 (world_two, [CExit 0 (Some (KeyError 5))]).
Proof.
  apply (fire_after_swallowed default_enter swallow_exit world_two [] 5 1 0 (KeyError 5)).
  - intros r x w. reflexivity.
  - reflexivity.
  - eexists. reflexivity.
  - vm_compute. reflexivity.
  - reflexivity.
Defined.
